(** * New-year countdown: shape generator, morph animator, stage controller

    A shallow embedding of
      - [src/types.ts]                 (AppStage, HandState, ParticlePoint),
      - [src/utils/shapeGenerator.ts]  (tree and text point clouds),
      - the App component              (stage and gesture state machine),
      - the ParticleScene component    (target buffers and per-frame lerp),
      - the hand-state decoding of the Gemini service.

    Conventions of the embedding.
      - JavaScript numbers are exact rationals [Q]; integers that only index
        or count are [Z] or [nat].  Rounding of IEEE doubles and of
        [Float32Array] stores is not modelled here.
      - [Math.random], [Math.sin], [Math.cos], [Date.now] and the 2D canvas
        are the environment: section variables that every definition takes
        as arguments once its section is closed.
      - A [Float32Array] is a [list Q] of fixed length, read with [!!] and
        written with [<[i:=v]>]; like a typed array, a write out of range
        changes nothing.
      - React state of a component is a record; a render followed by the
        effects whose dependencies changed is one function on that record. *)

From Stdlib Require Import ZArith QArith Qabs Qround Qpower Lqa Lia.
From stdpp Require Import base list gmap strings.

(** ** types.ts *)

Inductive AppStage :=
  | TREE
  | COUNTDOWN_5
  | COUNTDOWN_4
  | COUNTDOWN_3
  | COUNTDOWN_2
  | COUNTDOWN_1
  | HAPPY_NEW_YEAR.

(** The string value of each member of the enum. *)
Definition AppStage_value (s : AppStage) : string :=
  match s with
  | TREE => "TREE"
  | COUNTDOWN_5 => "5"
  | COUNTDOWN_4 => "4"
  | COUNTDOWN_3 => "3"
  | COUNTDOWN_2 => "2"
  | COUNTDOWN_1 => "1"
  | HAPPY_NEW_YEAR => "HAPPY_NEW_YEAR"
  end.

Inductive HandState := UNKNOWN | OPEN | CLOSED.

Definition HandState_eqb (a b : HandState) : bool :=
  match a, b with
  | UNKNOWN, UNKNOWN | OPEN, OPEN | CLOSED, CLOSED => true
  | _, _ => false
  end.

Module ParticlePoint.
Record t := mk { x : Q; y : Q; z : Q; color : Q * Q * Q }.
End ParticlePoint.

(** ** Gemini service: decoding of the tool call argument *)

Definition decodeHandState (stateStr : string) : HandState :=
  if String.eqb stateStr "OPEN" then OPEN
  else if String.eqb stateStr "CLOSED" then CLOSED
  else UNKNOWN.

(** ** App: stage and gesture state *)

Definition STAGE_ORDER : list AppStage :=
  [TREE; COUNTDOWN_5; COUNTDOWN_4; COUNTDOWN_3; COUNTDOWN_2; COUNTDOWN_1;
   HAPPY_NEW_YEAR].

(** The three [useState] cells of [App] that the stage logic touches. *)
Record AppState := mkApp {
  currentStageIndex : Z;
  handState : HandState;
  prevHandState : HandState
}.

Definition initialApp : AppState := mkApp 0%Z UNKNOWN UNKNOWN.

Definition setCurrentStageIndex (f : Z -> Z) (st : AppState) : AppState :=
  mkApp (f (currentStageIndex st)) (handState st) (prevHandState st).

Definition setHandState (h : HandState) (st : AppState) : AppState :=
  mkApp (currentStageIndex st) h (prevHandState st).

Definition setPrevHandState (h : HandState) (st : AppState) : AppState :=
  mkApp (currentStageIndex st) (handState st) h.

(** [handleNextStage]: [setCurrentStageIndex(prev => Math.min(prev + 1,
    STAGE_ORDER.length - 1))]. *)
Definition handleNextStage (st : AppState) : AppState :=
  setCurrentStageIndex
    (fun prev => Z.min (prev + 1) (Z.of_nat (length STAGE_ORDER) - 1))%Z st.

(** The body of the effect with dependency list [[handState]]: it sees the
    [prevHandState] and [handState] of the render it belongs to. *)
Definition gestureEffect (st : AppState) : AppState :=
  let st1 :=
    if HandState_eqb (prevHandState st) OPEN && HandState_eqb (handState st) CLOSED
    then handleNextStage st
    else st in
  setPrevHandState (handState st) st1.

(** A render after state updates: the effect runs again exactly when
    [handState] differs from the one of the previous render. *)
Definition commit (before after : AppState) : AppState :=
  if HandState_eqb (handState before) (handState after) then after
  else gestureEffect after.

(** The callback [onHandStateChange: (state) => setHandState(state)]
    followed by the render it causes. *)
Definition onHandStateChange (s : HandState) (st : AppState) : AppState :=
  commit st (setHandState s st).

(** The "Next Stage" button. *)
Definition clickNext (st : AppState) : AppState :=
  commit st (handleNextStage st).

(** [handleReset] and the render it causes. *)
Definition handleReset (st : AppState) : AppState :=
  commit st
    (setPrevHandState UNKNOWN
       (setHandState UNKNOWN (setCurrentStageIndex (fun _ => 0%Z) st))).

Inductive Event :=
  | Notify (s : HandState)
  | NextStage
  | ResetStage.

Definition step (st : AppState) (e : Event) : AppState :=
  match e with
  | Notify s => onHandStateChange s st
  | NextStage => clickNext st
  | ResetStage => handleReset st
  end.

(** The state after mounting (the effect runs once on mount) and then
    handling the events in order. *)
Definition run (evs : list Event) : AppState :=
  fold_left step evs (gestureEffect initialApp).

(** The stage shown for an index: [STAGE_ORDER[currentStageIndex]]. *)
Definition currentStage (st : AppState) : option AppStage :=
  if (currentStageIndex st <? 0)%Z then None
  else STAGE_ORDER !! Z.to_nat (currentStageIndex st).

(** Number of places in a sequence of gesture states where OPEN is
    immediately followed by CLOSED. *)
Fixpoint fallingEdges (prev : HandState) (l : list HandState) : Z :=
  match l with
  | [] => 0%Z
  | s :: l' =>
      ((if HandState_eqb prev OPEN && HandState_eqb s CLOSED then 1 else 0)
       + fallingEdges s l')%Z
  end.

(** What React state every reachable render has: the remembered gesture is
    the current one, and the index is inside [STAGE_ORDER]. *)
Definition settled (st : AppState) : Prop :=
  prevHandState st = handState st /\ (0 <= currentStageIndex st <= 6)%Z.

(** ** The environment: random source, trigonometry, canvas *)

(** A computation that may call [Math.random] and may throw.  The state is
    the number of draws made so far; [None] is an uncaught [TypeError]. *)
Definition Gen (A : Type) : Type := nat -> option (A * nat).

Definition ret {A} (a : A) : Gen A := fun k => Some (a, k).

Definition throw {A} : Gen A := fun _ => None.

Definition bind {A B} (m : Gen A) (f : A -> Gen B) : Gen B :=
  fun k => match m k with
           | Some (a, k') => f a k'
           | None => None
           end.

Notation "'let*' x ':=' m 'in' f" := (bind m (fun x => f))
  (at level 10, x name, m at level 100, f at level 200).

(** [for (const i of idxs) s = body(i, s)]. *)
Fixpoint forEachM {S} (body : nat -> S -> Gen S) (idxs : list nat) (s : S) : Gen S :=
  match idxs with
  | [] => ret s
  | i :: rest => let* s' := body i s in forEachM body rest s'
  end.

(** [for (let i = 0; i < n; i++) s = body(i, s)]. *)
Definition forLoop {S} (n : nat) (body : nat -> S -> Gen S) (s : S) : Gen S :=
  forEachM body (seq 0 n) s.

(** [a > b] on numbers. *)
Definition Qgtb (a b : Q) : bool := negb (Qle_bool a b).

(** The number [i] of a loop counter. *)
Definition num (i : nat) : Q := inject_Z (Z.of_nat i).

(** ** utils/shapeGenerator.ts *)

Definition PARTICLE_COUNT : nat := 4000.
Definition CANVAS_WIDTH : Z := 200%Z.
Definition CANVAS_HEIGHT : Z := 100%Z.

Definition createPoint (x y z : Q) (color : Q * Q * Q) : ParticlePoint.t :=
  ParticlePoint.mk x y z color.

Definition GREEN : Q * Q * Q := (0.1, 0.8, 0.2)%Q.
Definition RED : Q * Q * Q := (1, 0.1, 0.1)%Q.
Definition GOLD : Q * Q * Q := (1, 0.8, 0.1)%Q.

(** [const height = (i / PARTICLE_COUNT) * 20 - 10]. *)
Definition treeHeight (i : nat) : Q := (num i / num PARTICLE_COUNT * 20 - 10)%Q.

(** [const radius = ((20 - (height + 10)) / 20) * 8]. *)
Definition treeRadius (height : Q) : Q := ((20 - (height + 10)) / 20 * 8)%Q.

(** [const angle = i * 0.1]. *)
Definition treeAngle (i : nat) : Q := (num i * 0.1)%Q.

(** The colour that lines 27-29 pick when the first draw is [r1] and the
    draw after it is [r2]. *)
Definition ornament (r1 r2 : Q) : Q * Q * Q :=
  if Qgtb r1 0.95 then RED else if Qgtb r2 0.95 then GOLD else GREEN.

(** The [n] midpoints [(2 j + 1) / (2 n)] of the cells of width [1 / n]
    that tile [[0, 1)]: a uniform draw, read to the cell. *)
Definition cellMidpoints (n : nat) : list Q :=
  (fun j => (2 * num j + 1) / (2 * num n))%Q <$> seq 0 n.

(** The share of the pairs of cells (first draw, draw after it) on which
    [ornament] picks the colour that [pick] accepts. *)
Definition share (n : nat) (pick : Q * Q * Q -> bool) : Q :=
  let cells := cellMidpoints n in
  (num (length (filter (fun rr => pick (ornament rr.1 rr.2) = true)
                       (r1 ← cells; r2 ← cells; [(r1, r2)])))
   / num (n * n))%Q.

Definition isColor (c d : Q * Q * Q) : bool :=
  Qeq_bool c.1.1 d.1.1 && Qeq_bool c.1.2 d.1.2 && Qeq_bool c.2 d.2.

Section Environment.

(** [random_draws k] is the value of the [k]-th call of [Math.random]. *)
Variable random_draws : nat -> Q.
Variables Math_sin Math_cos : Q -> Q.

(** [document.createElement('canvas').getContext('2d')]: [None] when the
    context is null; otherwise the function from the text and the font size
    in pixels to [imageData.data] after [fillText] (RGBA bytes, row-major). *)
Variable canvas2d : option (string -> Z -> list Z).

Definition Math_random : Gen Q := fun k => Some (random_draws k, S k).

(** Lines 27-29: green, unless a first draw exceeds 0.95 (red), or else a
    second draw exceeds 0.95 (gold). *)
Definition ornamentColor : Gen (Q * Q * Q) :=
  let* r1 := Math_random in
  if Qgtb r1 0.95 then ret RED
  else
    let* r2 := Math_random in
    if Qgtb r2 0.95 then ret GOLD else ret GREEN.

(** The body of the loop of [generateTreePoints]. *)
Definition treePoint (i : nat) (points : list ParticlePoint.t)
  : Gen (list ParticlePoint.t) :=
  let angle := treeAngle i in
  let height := treeHeight i in
  let radius := treeRadius height in
  let x := (Math_cos angle * radius)%Q in
  let z := (Math_sin angle * radius)%Q in
  let y := height in
  let* color := ornamentColor in
  ret (points ++ [createPoint x y z color]).

(** The point that [treePoint] pushes for index [i] when the colour drawn
    is [c]. *)
Definition treeParticle (i : nat) (c : Q * Q * Q) : ParticlePoint.t :=
  createPoint (Math_cos (treeAngle i) * treeRadius (treeHeight i))%Q
              (treeHeight i)
              (Math_sin (treeAngle i) * treeRadius (treeHeight i))%Q c.

Definition generateTreePoints : Gen (list ParticlePoint.t) :=
  forLoop PARTICLE_COUNT treePoint [].

(** [for (let v = 0; v < bound; v += 2)]: the values [v] takes. *)
Definition stride2 (bound : Z) : list Z :=
  (fun k => 2 * Z.of_nat k)%Z <$> seq 0 (Z.to_nat ((bound + 1) / 2)).

(** [data[(y * CANVAS_WIDTH + x) * 4] > 128]; a read past the end of the
    array is [undefined], and [undefined > 128] is false. *)
Definition isWhite (data : list Z) (x y : Z) : bool :=
  let index := ((y * CANVAS_WIDTH + x) * 4)%Z in
  match data !! Z.to_nat index with
  | Some red => (128 <? red)%Z
  | None => false
  end.

(** The scan for white pixels: [validPixels] in the order of the pushes. *)
Definition scanPixels (data : list Z) : list (Z * Z) :=
  flat_map
    (fun y =>
       flat_map (fun x => if isWhite data x y then [(x, y)] else [])
                (stride2 CANVAS_WIDTH))
    (stride2 CANVAS_HEIGHT).

(** The body of the loop that maps pixels to points. *)
Definition textPoint (validPixels : list (Z * Z)) (colorBase : Q * Q * Q)
    (i : nat) (points : list ParticlePoint.t) : Gen (list ParticlePoint.t) :=
  match validPixels !! (i mod length validPixels) with
  | None => throw
  | Some pixel =>
      let x := ((inject_Z (fst pixel) - inject_Z CANVAS_WIDTH / 2) * 0.2)%Q in
      let y := (- (inject_Z (snd pixel) - inject_Z CANVAS_HEIGHT / 2) * 0.2)%Q in
      let* r := Math_random in
      let z := ((r - 0.5) * 2)%Q in
      ret (points ++ [createPoint x y z colorBase])
  end.

(** The point that [textPoint] pushes for [pixel] when the draw is [r]. *)
Definition pixelPoint (pixel : Z * Z) (r : Q) (colorBase : Q * Q * Q)
  : ParticlePoint.t :=
  createPoint ((inject_Z (fst pixel) - inject_Z CANVAS_WIDTH / 2) * 0.2)%Q
              (- (inject_Z (snd pixel) - inject_Z CANVAS_HEIGHT / 2) * 0.2)%Q
              ((r - 0.5) * 2)%Q colorBase.

(** [String.length] counts bytes where [text.length] counts UTF-16 units;
    on the texts that reach this function both are above 2 or both are not. *)
Definition fontSizeOf (text : string) : Z :=
  if 2 <? String.length text then 30%Z else 80%Z.

Definition generateTextPoints (text : string) (colorBase : Q * Q * Q)
  : Gen (list ParticlePoint.t) :=
  match canvas2d with
  | None => ret []
  | Some fillText =>
      let data := fillText text (fontSizeOf text) in
      let validPixels := scanPixels data in
      if length validPixels =? 0 then ret []
      else forLoop PARTICLE_COUNT (textPoint validPixels colorBase) []
  end.

Definition HAPPY_NEW_YEAR_TEXT : string := "新年快乐".

Definition getPointsForStage (stage : string) : Gen (list ParticlePoint.t) :=
  if String.eqb stage "TREE" then generateTreePoints
  else if String.eqb stage "5" || String.eqb stage "4" || String.eqb stage "3"
          || String.eqb stage "2" || String.eqb stage "1"
  then generateTextPoints stage (0.4, 0.6, 1.0)%Q
  else if String.eqb stage "HAPPY_NEW_YEAR"
  then generateTextPoints HAPPY_NEW_YEAR_TEXT (1, 0.8, 0.2)%Q
  else generateTreePoints.

(** ** ParticleScene: typed arrays and refs *)

Definition particleCount : nat := 4000.
Definition lerpFactor : Q := 0.08%Q.

(** The typed arrays live in a store, by address; the refs of the component
    hold addresses.  [particlesRef] stands for the three arrays
    [position], [color] and [aRandom] of [particlesRef.current.geometry]. *)
Record Scene := mkScene {
  heap : gmap nat (list Q);
  particlesRef : option (nat * nat * nat);
  targetPositionsRef : option nat;
  targetColorsRef : option nat
}.

Definition emptyScene : Scene := mkScene ∅ None None None.

Definition setHeap (h : gmap nat (list Q)) (s : Scene) : Scene :=
  mkScene h (particlesRef s) (targetPositionsRef s) (targetColorsRef s).

Definition setParticlesRef (r : option (nat * nat * nat)) (s : Scene) : Scene :=
  mkScene (heap s) r (targetPositionsRef s) (targetColorsRef s).

Definition setTargetPositionsRef (r : option nat) (s : Scene) : Scene :=
  mkScene (heap s) (particlesRef s) r (targetColorsRef s).

Definition setTargetColorsRef (r : option nat) (s : Scene) : Scene :=
  mkScene (heap s) (particlesRef s) (targetPositionsRef s) r.

(** [new Float32Array(n)]: a fresh array of [n] zeros. *)
Definition newFloat32Array (n : nat) (s : Scene) : nat * Scene :=
  let a := fresh (dom (heap s)) in
  (a, setHeap (<[a := replicate n 0%Q]> (heap s)) s).

(** [arr[i]]; [None] is [undefined]. *)
Definition load (a i : nat) (s : Scene) : option Q :=
  heap s !! a ≫= (.!! i).

(** [arr[i] = v]; a write past the end of a typed array is ignored. *)
Definition store (a i : nat) (v : Q) (s : Scene) : Scene :=
  setHeap (alter (<[i := v]>) a (heap s)) s.

(** Capacity normalisation as the specification words it: entry [j] of the
    position buffer is coordinate [j mod 3] of point [j / 3] when there is
    such a point, and 0 (the origin) otherwise; likewise for the colours. *)
Definition positionChannel (p : ParticlePoint.t) (c : nat) : Q :=
  match c with
  | 0 => ParticlePoint.x p
  | 1 => ParticlePoint.y p
  | _ => ParticlePoint.z p
  end.

Definition colorChannel (p : ParticlePoint.t) (c : nat) : Q :=
  match c with
  | 0 => (ParticlePoint.color p).1.1
  | 1 => (ParticlePoint.color p).1.2
  | _ => (ParticlePoint.color p).2
  end.

Definition normalizedPosition (points : list ParticlePoint.t) (j : nat) : Q :=
  match points !! (j / 3) with
  | Some p => positionChannel p (j mod 3)
  | None => 0%Q
  end.

Definition normalizedColor (points : list ParticlePoint.t) (j : nat) : Q :=
  match points !! (j / 3) with
  | Some p => colorChannel p (j mod 3)
  | None => 0%Q
  end.

(** The body of [points.forEach((p, i) => ...)] in the stage effect. *)
Definition copyPoint (newTargetPositions newTargetColors : nat)
    (s : Scene) (ip : nat * ParticlePoint.t) : Scene :=
  let '(i, p) := ip in
  if i <? particleCount then
    let s := store newTargetPositions (i * 3) (ParticlePoint.x p) s in
    let s := store newTargetPositions (i * 3 + 1) (ParticlePoint.y p) s in
    let s := store newTargetPositions (i * 3 + 2) (ParticlePoint.z p) s in
    let s := store newTargetColors (i * 3) (ParticlePoint.color p).1.1 s in
    let s := store newTargetColors (i * 3 + 1) (ParticlePoint.color p).1.2 s in
    store newTargetColors (i * 3 + 2) (ParticlePoint.color p).2 s
  else s.

(** The body of the loop over the extra particles. *)
Definition hidePoint (newTargetPositions newTargetColors : nat)
    (s : Scene) (i : nat) : Scene :=
  let s := store newTargetPositions (i * 3) 0%Q s in
  let s := store newTargetPositions (i * 3 + 1) 0%Q s in
  let s := store newTargetPositions (i * 3 + 2) 0%Q s in
  let s := store newTargetColors (i * 3) 0%Q s in
  let s := store newTargetColors (i * 3 + 1) 0%Q s in
  store newTargetColors (i * 3 + 2) 0%Q s.

(** The scene after the two arrays are allocated and filled, before the
    refs are assigned; with the addresses of the two arrays. *)
Definition fillTargets (points : list ParticlePoint.t) (s : Scene)
  : nat * nat * Scene :=
  let '(newTargetPositions, s) := newFloat32Array (particleCount * 3) s in
  let '(newTargetColors, s) := newFloat32Array (particleCount * 3) s in
  let s := foldl (copyPoint newTargetPositions newTargetColors) s
                 (imap pair points) in
  let s := foldl (hidePoint newTargetPositions newTargetColors) s
                 (seq (length points) (particleCount - length points)) in
  (newTargetPositions, newTargetColors, s).

(** The effect with dependency list [[stage]], after [getPointsForStage]. *)
Definition updateTargets (points : list ParticlePoint.t) (s : Scene) : Scene :=
  let '(newTargetPositions, newTargetColors, s) := fillTargets points s in
  let s := setTargetPositionsRef (Some newTargetPositions) s in
  setTargetColorsRef (Some newTargetColors) s.

Definition stageEffect (stage : string) (s : Scene) : Gen Scene :=
  let* points := getPointsForStage stage in
  ret (updateTargets points s).

(** The body of the set-up loop of the main particles (lines 45-51). *)
Definition initParticle (positions colors randoms : nat) (i : nat) (s : Scene)
  : Gen Scene :=
  let* r0 := Math_random in
  let s := store positions (i * 3) ((r0 - 0.5) * 50)%Q s in
  let* r1 := Math_random in
  let s := store positions (i * 3 + 1) ((r1 - 0.5) * 50)%Q s in
  let* r2 := Math_random in
  let s := store positions (i * 3 + 2) ((r2 - 0.5) * 50)%Q s in
  let s := store colors (i * 3) 1.0%Q s in
  let* r3 := Math_random in
  ret (store randoms i r3 s).

(** The part of the mount effect that sets up the main particles. *)
Definition setupParticles (s : Scene) : Gen Scene :=
  let '(positions, s) := newFloat32Array (particleCount * 3) s in
  let '(colors, s) := newFloat32Array (particleCount * 3) s in
  let '(randoms, s) := newFloat32Array particleCount s in
  let* s := forLoop particleCount (initParticle positions colors randoms) s in
  ret (setParticlesRef (Some (positions, colors, randoms)) s).

(** The body of the loop of [animate] for particle [i]; [None] when a read
    is [undefined]. *)
Definition animateParticle (time : Q)
    (positions colors randoms targets targetCols : nat)
    (s : Scene) (i : nat) : option Scene :=
  let i3 := i * 3 in
  r ← load randoms i s;
  let floatOffset := (Math_sin (time + r * 10) * 0.2)%Q in
  let floatOffsetX := (Math_cos (time * 0.5 + r * 10) * 0.1)%Q in
  t0 ← load targets i3 s;
  let targetX := (t0 + floatOffsetX)%Q in
  t1 ← load targets (i3 + 1) s;
  let targetY := (t1 + floatOffset)%Q in
  targetZ ← load targets (i3 + 2) s;
  p0 ← load positions i3 s;
  let s := store positions i3 (p0 + (targetX - p0) * lerpFactor)%Q s in
  p1 ← load positions (i3 + 1) s;
  let s := store positions (i3 + 1) (p1 + (targetY - p1) * lerpFactor)%Q s in
  p2 ← load positions (i3 + 2) s;
  let s := store positions (i3 + 2) (p2 + (targetZ - p2) * lerpFactor)%Q s in
  c0 ← load colors i3 s;
  tc0 ← load targetCols i3 s;
  let s := store colors i3 (c0 + (tc0 - c0) * lerpFactor)%Q s in
  c1 ← load colors (i3 + 1) s;
  tc1 ← load targetCols (i3 + 1) s;
  let s := store colors (i3 + 1) (c1 + (tc1 - c1) * lerpFactor)%Q s in
  c2 ← load colors (i3 + 2) s;
  tc2 ← load targetCols (i3 + 2) s;
  Some (store colors (i3 + 2) (c2 + (tc2 - c2) * lerpFactor)%Q s).









(** [for (const i of idxs) s = body(s, i)] where the body may fail. *)
Fixpoint foldOpt {S} (body : S -> nat -> option S) (idxs : list nat) (s : S)
  : option S :=
  match idxs with
  | [] => Some s
  | i :: rest => s' ← body s i; foldOpt body rest s'
  end.

(** One frame of [animate] at [Date.now() = now] (milliseconds), as far as
    the main particles go; the rotation of the stars and the call of the
    renderer do not touch these arrays. *)
Definition animate (now : Z) (s : Scene) : option Scene :=
  let time := (inject_Z now * 0.001)%Q in
  match particlesRef s, targetPositionsRef s, targetColorsRef s with
  | Some (positions, colors, randoms), Some targets, Some targetCols =>
      foldOpt (animateParticle time positions colors randoms targets targetCols)
              (seq 0 particleCount) s
  | _, _, _ => Some s
  end.


(** The dispatch of [getPointsForStage]: the text and the colour handed to
    [generateTextPoints], or [None] for the two cases that build the tree. *)
Definition stageText (stage : string) : option (string * (Q * Q * Q)) :=
  if String.eqb stage "TREE" then None
  else if String.eqb stage "5" || String.eqb stage "4" || String.eqb stage "3"
          || String.eqb stage "2" || String.eqb stage "1"
  then Some (stage, (0.4, 0.6, 1.0)%Q)
  else if String.eqb stage "HAPPY_NEW_YEAR"
  then Some (HAPPY_NEW_YEAR_TEXT, (1, 0.8, 0.2)%Q)
  else None.

(** A canvas on which [fillText] paints nothing: 200 x 100 black pixels. *)
Definition blackImage : list Z := replicate 80000 0%Z.


End Environment.

(** What each loop body leaves alone: the refs, every other array, and the
    length of every array. *)
Definition sameExcept (P C : nat) (s s' : Scene) : Prop :=
  particlesRef s' = particlesRef s /\
  targetPositionsRef s' = targetPositionsRef s /\
  targetColorsRef s' = targetColorsRef s /\
  (forall a, a <> P -> a <> C -> heap s' !! a = heap s !! a) /\
  (forall a, (length <$> heap s' !! a) = (length <$> heap s !! a)).

(** ** Gemini service: the tool calls of one message *)

(** [fc.id], [fc.name] and [(fc.args as any).state]; the last is [None]
    when the call carries no [state]. *)
Record FunctionCall := mkCall {
  fc_id : string;
  fc_name : string;
  fc_state : option string
}.

(** [{ id, name, response: { result: 'ok' } }]. *)
Record FunctionResponse := mkResponse {
  fr_id : string;
  fr_name : string;
  fr_result : string
}.

(** [stateStr === 'OPEN' ? OPEN : stateStr === 'CLOSED' ? CLOSED : UNKNOWN]
    on a value that may be [undefined]. *)
Definition decodeState (stateStr : option string) : HandState :=
  match stateStr with
  | Some str => decodeHandState str
  | None => UNKNOWN
  end.

(** The loop over [message.toolCall.functionCalls]: the states handed to
    [onHandStateChange], in order, and the responses pushed. *)
Fixpoint handleFunctionCalls (calls : list FunctionCall)
  : list HandState * list FunctionResponse :=
  match calls with
  | [] => ([], [])
  | fc :: rest =>
      let '(states, responses) := handleFunctionCalls rest in
      if String.eqb (fc_name fc) "setHandState"
      then (decodeState (fc_state fc) :: states,
            mkResponse (fc_id fc) (fc_name fc) "ok" :: responses)
      else (states, responses)
  end.

(** ** The life of a particle scene *)

(** Largest floating offset of position channel [c]: 0.1 across, 0.2 up,
    none in depth. *)
Definition amplitude (c : nat) : Q :=
  match c with
  | 0 => 0.1%Q
  | 1 => 0.2%Q
  | _ => 0%Q
  end.

(** What happens to a mounted scene: the stage prop changes, or the
    browser calls [animate] for a frame. *)
Inductive SceneEvent :=
  | StageChange (stage : string)
  | Frame (now : Z).

Section SceneLife.

Variable random_draws : nat -> Q.
Variables Math_sin Math_cos : Q -> Q.
Variable canvas2d : option (string -> Z -> list Z).

(** A computation that makes no draw. *)
Definition liftOption {A} (o : option A) : Gen A :=
  fun k => match o with Some a => Some (a, k) | None => None end.

Definition sceneStep (s : Scene) (e : SceneEvent) : Gen Scene :=
  match e with
  | StageChange stage =>
      stageEffect random_draws Math_sin Math_cos canvas2d stage s
  | Frame now => liftOption (animate Math_sin Math_cos now s)
  end.

Fixpoint sceneSteps (evs : list SceneEvent) (s : Scene) : Gen Scene :=
  match evs with
  | [] => ret s
  | e :: rest => let* s' := sceneStep s e in sceneSteps rest s'
  end.

(** Mounting: the first effect sets up the particles and calls [animate]
    once, at clock [now0]; the second effect installs the targets of the
    first stage; then the events follow. *)
Definition mountScene (now0 : Z) (stage : string) (evs : list SceneEvent)
  : Gen Scene :=
  let* s := setupParticles random_draws emptyScene in
  let* s := liftOption (animate Math_sin Math_cos now0 s) in
  let* s := stageEffect random_draws Math_sin Math_cos canvas2d stage s in
  sceneSteps evs s.

End SceneLife.

(** * Stage controller *)

Section StageController.

Lemma HandState_eqb_eq a b : HandState_eqb a b = true <-> a = b.
Proof. destruct a, b; simpl; split; congruence. Qed.

Lemma HandState_eqb_refl a : HandState_eqb a a = true.
Proof. by destruct a. Qed.

Lemma lastIndex : (Z.of_nat (length STAGE_ORDER) - 1 = 6)%Z.
Proof. reflexivity. Qed.

Lemma gestureEffect_settled st :
  (0 <= currentStageIndex st <= 6)%Z -> settled (gestureEffect st).
Proof.
  intros Hi. unfold settled, gestureEffect.
  destruct (HandState_eqb (prevHandState st) OPEN && HandState_eqb (handState st) CLOSED);
    simpl; split; try done; lia.
Qed.

Lemma step_settled st e : settled st -> settled (step st e).
Proof.
  intros [Hp Hi]. destruct e as [s| |]; simpl.
  - unfold onHandStateChange, commit. simpl.
    destruct (HandState_eqb (handState st) s) eqn:E.
    + apply HandState_eqb_eq in E. subst s. split; simpl; done.
    + apply gestureEffect_settled. simpl; lia.
  - unfold clickNext, commit. simpl. rewrite HandState_eqb_refl.
    split; simpl; [done | lia].
  - unfold handleReset, commit. simpl.
    destruct (HandState_eqb (handState st) UNKNOWN).
    + split; simpl; [done | lia].
    + apply gestureEffect_settled. simpl; lia.
Qed.

Lemma fold_settled evs st : settled st -> settled (fold_left step evs st).
Proof.
  revert st. induction evs as [|e evs IH]; intros st H; simpl; [done|].
  apply IH, step_settled, H.
Qed.

Lemma run_settled evs : settled (run evs).
Proof. apply fold_settled. split; simpl; [done | lia]. Qed.

(** One notification on a settled state, in closed form. *)
Lemma notify_settled st s :
  settled st ->
  onHandStateChange s st =
    mkApp (if HandState_eqb (prevHandState st) OPEN && HandState_eqb s CLOSED
           then Z.min (currentStageIndex st + 1) 6
           else currentStageIndex st) s s.
Proof.
  intros [Hp Hi]. unfold onHandStateChange, commit. simpl.
  destruct (HandState_eqb (handState st) s) eqn:E.
  - apply HandState_eqb_eq in E. subst s. rewrite Hp.
    destruct st as [i h p]; simpl in *. subst p.
    by destruct h.
  - unfold gestureEffect. simpl.
    destruct (HandState_eqb (prevHandState st) OPEN && HandState_eqb s CLOSED);
      reflexivity.
Qed.

Lemma last_nonempty {A} (a : A) l d d' :
  List.last (a :: l) d = List.last (a :: l) d'.
Proof.
  revert a. induction l as [|b l IH]; intros a; [done|].
  change (List.last (b :: l) d = List.last (b :: l) d'). apply IH.
Qed.

Lemma notifications_from st l :
  settled st ->
  fold_left step (Notify <$> l) st =
    mkApp (Z.min (currentStageIndex st + fallingEdges (prevHandState st) l) 6)
          (List.last l (handState st)) (List.last l (prevHandState st)).
Proof.
  revert st. induction l as [|s l IH]; intros st H.
  - destruct H as [Hp Hi]. destruct st as [i h p]; simpl in *.
    f_equal. lia.
  - change (fold_left step (Notify <$> s :: l) st)
      with (fold_left step (Notify <$> l) (onHandStateChange s st)).
    pose proof (step_settled st (Notify s) H) as H'. simpl in H'.
    rewrite (IH _ H'). rewrite (notify_settled _ _ H). simpl.
    destruct H as [Hp Hi].
    assert (Hf : (0 <= fallingEdges s l)%Z).
    { clear. revert s. induction l as [|a l IHl]; intros s; simpl; [lia|].
      specialize (IHl a).
      destruct (HandState_eqb s OPEN && HandState_eqb a CLOSED); lia. }
    f_equal.
    + destruct (HandState_eqb (prevHandState st) OPEN && HandState_eqb s CLOSED); lia.
    + destruct l; [done|]. apply last_nonempty.
    + destruct l; [done|]. apply last_nonempty.
Qed.

Lemma clickNext_eq st :
  clickNext st =
    mkApp (Z.min (currentStageIndex st + 1) 6) (handState st) (prevHandState st).
Proof. unfold clickNext, commit. simpl. by rewrite HandState_eqb_refl. Qed.

Lemma iter_clickNext n st :
  (currentStageIndex st <= 6)%Z ->
  Nat.iter n clickNext st =
    mkApp (Z.min (currentStageIndex st + Z.of_nat n) 6) (handState st) (prevHandState st).
Proof.
  intros Hi. induction n as [|n IH].
  - destruct st as [i h p]; simpl in *. f_equal. lia.
  - rewrite Nat.iter_succ, IH, clickNext_eq. simpl. f_equal. lia.
Qed.

(** C2 (as amended).  After any history of notifications, button presses
    and resets, one more gesture notification [s] leaves both the current
    and the remembered gesture equal to [s], whether or not the stage moved;
    the stage index becomes [min (index + 1) 6] when the remembered gesture
    was OPEN and [s] is CLOSED, and is unchanged by every other pair; below
    the last index the index grows by one exactly on OPEN then CLOSED.  For a
    history of notifications alone the index is the number of OPEN-CLOSED
    adjacencies, capped at 6; [OPEN, OPEN, CLOSED] gives index 1 and
    [CLOSED, OPEN] gives index 0. *)
Theorem gesture_edge_advances_clamped :
  (forall (evs : list Event) (s : HandState),
     let st := run evs in
     let st' := onHandStateChange s st in
     prevHandState st' = s /\ handState st' = s /\
     currentStageIndex st' =
       (if HandState_eqb (prevHandState st) OPEN && HandState_eqb s CLOSED
        then Z.min (currentStageIndex st + 1) 6
        else currentStageIndex st) /\
     ((currentStageIndex st < 6)%Z ->
      (currentStageIndex st' = currentStageIndex st + 1)%Z <->
      (prevHandState st = OPEN /\ s = CLOSED))) /\
  (forall l : list HandState,
     run (Notify <$> l) =
       mkApp (Z.min (fallingEdges UNKNOWN l) 6)
             (List.last l UNKNOWN) (List.last l UNKNOWN)) /\
  currentStageIndex (run [Notify OPEN; Notify OPEN; Notify CLOSED]) = 1%Z /\
  currentStageIndex (run [Notify CLOSED; Notify OPEN]) = 0%Z.
Proof.
  split; [|split; [|split; reflexivity]].
  - intros evs s st st'. subst st'.
    pose proof (run_settled evs) as H. fold st in H.
    rewrite (notify_settled _ _ H). simpl.
    split; [reflexivity|]. split; [reflexivity|]. split; [reflexivity|].
    intros Hlt.
    destruct (HandState_eqb (prevHandState st) OPEN) eqn:E1;
      destruct (HandState_eqb s CLOSED) eqn:E2; simpl.
    + apply HandState_eqb_eq in E1, E2. split; [done | lia].
    + split; [lia|]. intros [_ ->]. done.
    + split; [lia|]. intros [E _]. rewrite E in E1. done.
    + split; [lia|]. intros [E _]. rewrite E in E1. done.
  - intros l. unfold run.
    rewrite notifications_from by (split; simpl; [done | lia]).
    reflexivity.
Qed.

(** C2 as stated fails at the last stage: after six OPEN-CLOSED pairs and one
    more OPEN the remembered gesture is OPEN and the index is 6; the CLOSED
    that follows leaves the index at 6, which is not one more. *)
Lemma falling_edge_at_last_stage :
  let st := run (Notify <$> [OPEN; CLOSED; OPEN; CLOSED; OPEN; CLOSED; OPEN;
                             CLOSED; OPEN; CLOSED; OPEN; CLOSED; OPEN]) in
  prevHandState st = OPEN /\
  currentStageIndex st = 6%Z /\
  currentStageIndex (onHandStateChange CLOSED st) = 6%Z /\
  currentStageIndex (onHandStateChange CLOSED st) <> (currentStageIndex st + 1)%Z.
Proof. vm_compute. repeat split; congruence. Qed.

(** C6.  [handleNextStage] maps index [n] to [min (n + 1) 6] and touches
    nothing else; from index 0, [n] presses end at [min n 6]: never above 6,
    never back to 0, at 6 from the sixth press on; 10 presses on the
    7-stage order end at index 6, the stage HAPPY_NEW_YEAR; a press at
    index 6 changes nothing. *)
Theorem advance_reaches_last_and_stays :
  Z.of_nat (length STAGE_ORDER) = 7%Z /\
  (forall st : AppState,
     clickNext st =
       mkApp (Z.min (currentStageIndex st + 1) (Z.of_nat (length STAGE_ORDER) - 1))
             (handState st) (prevHandState st)) /\
  (forall (n : nat) (h p : HandState),
     currentStageIndex (Nat.iter n clickNext (mkApp 0 h p)) = Z.min (Z.of_nat n) 6) /\
  (forall (n : nat) (h p : HandState),
     6 <= n -> currentStageIndex (Nat.iter n clickNext (mkApp 0 h p)) = 6%Z) /\
  currentStageIndex (Nat.iter 10 clickNext (run [])) = 6%Z /\
  currentStage (Nat.iter 10 clickNext (run [])) = Some HAPPY_NEW_YEAR /\
  (forall st : AppState, currentStageIndex st = 6%Z -> clickNext st = st).
Proof.
  split; [reflexivity|].
  split; [intros st; apply clickNext_eq|].
  split; [|split; [|split; [reflexivity|split; [reflexivity|]]]].
  - intros n h p. rewrite iter_clickNext by (simpl; lia). simpl. lia.
  - intros n h p Hn. rewrite iter_clickNext by (simpl; lia). simpl. lia.
  - intros [i h p] E. simpl in E. subst i. by rewrite clickNext_eq.
Qed.

End StageController.

(** * Shape generator *)

Section ShapeGenerator.

Variable random_draws : nat -> Q.
Variables Math_sin Math_cos : Q -> Q.
Variable canvas2d : option (string -> Z -> list Z).

Lemma ornamentColor_eq k :
  ornamentColor random_draws k =
    Some (ornament (random_draws k) (random_draws (S k)),
          if Qgtb (random_draws k) 0.95 then S k else S (S k)).
Proof.
  unfold ornamentColor, ornament, bind, Math_random, ret.
  destruct (Qgtb (random_draws k) 0.95); [done|].
  by destruct (Qgtb (random_draws (S k)) 0.95).
Qed.

Lemma treePoint_eq i acc k :
  treePoint random_draws Math_sin Math_cos i acc k =
    Some (acc ++ [treeParticle Math_sin Math_cos i (ornament (random_draws k) (random_draws (S k)))],
          if Qgtb (random_draws k) 0.95 then S k else S (S k)).
Proof. unfold treePoint, bind. by rewrite ornamentColor_eq. Qed.

(** The loop of [generateTreePoints] over any list of indices: it returns,
    appends one point per index, and the colour of each point is [ornament]
    of two consecutive draws. *)
Lemma tree_loop idxs : forall acc k,
  exists pts k',
    forEachM (treePoint random_draws Math_sin Math_cos) idxs acc k
      = Some (acc ++ pts, k') /\
    length pts = length idxs /\
    k + length idxs <= k' <= k + 2 * length idxs /\
    forall j i, idxs !! j = Some i ->
      exists kj, k + j <= kj <= k + 2 * j /\
        pts !! j = Some (treeParticle Math_sin Math_cos i
                           (ornament (random_draws kj) (random_draws (S kj)))).
Proof.
  induction idxs as [|i idxs IH]; intros acc k.
  - exists [], k. simpl. rewrite app_nil_r. repeat split; try done; lia.
  - simpl. unfold bind at 1. rewrite treePoint_eq.
    set (k1 := if Qgtb (random_draws k) 0.95 then S k else S (S k)).
    assert (Hk1 : S k <= k1 <= S (S k)).
    { subst k1. destruct (Qgtb (random_draws k) 0.95); lia. }
    destruct (IH (acc ++ [treeParticle Math_sin Math_cos i (ornament (random_draws k) (random_draws (S k)))]) k1)
      as (pts & k' & Hrun & Hlen & Hk & Hpts).
    eexists (_ :: pts), k'. rewrite Hrun, <- app_assoc. simpl.
    split; [reflexivity|]. split; [lia|]. split; [lia|].
    intros [|j] i' Hj; simpl in Hj.
    + inversion Hj; subst i'. exists k. split; [lia | done].
    + destruct (Hpts j i' Hj) as (kj & Hkj & Hp).
      exists kj. split; [lia | done].
Qed.

Lemma generateTreePoints_returns k :
  exists pts k',
    generateTreePoints random_draws Math_sin Math_cos k = Some (pts, k') /\
    length pts = PARTICLE_COUNT /\
    forall i, i < PARTICLE_COUNT ->
      exists kj, pts !! i = Some (treeParticle Math_sin Math_cos i
                   (ornament (random_draws kj) (random_draws (S kj)))).
Proof.
  unfold generateTreePoints, forLoop.
  destruct (tree_loop (seq 0 PARTICLE_COUNT) [] k)
    as (pts & k' & Hrun & Hlen & _ & Hpts).
  exists pts, k'. split; [exact Hrun|].
  rewrite length_seq in Hlen. split; [exact Hlen|].
  intros i Hi. destruct (Hpts i i) as (kj & _ & Hp).
  - by apply lookup_seq_lt.
  - by exists kj.
Qed.

Lemma num_le i j : i <= j -> (num i <= num j)%Q.
Proof. intros H. unfold num. rewrite <- Zle_Qle. lia. Qed.

Lemma num_lt i j : i < j -> (num i < num j)%Q.
Proof. intros H. unfold num. rewrite <- Zlt_Qlt. lia. Qed.

Lemma treeHeight_eq i : (treeHeight i == num i * (1 # 200) - 10)%Q.
Proof.
  unfold treeHeight, Qdiv.
  change (/ num PARTICLE_COUNT)%Q with (1 # 4000)%Q. ring.
Qed.

Lemma treeRadius_eq h : (treeRadius h == 4 - h * (2 # 5))%Q.
Proof. unfold treeRadius. field. Qed.

Lemma treeHeight_mono i j : i <= j -> (treeHeight i <= treeHeight j)%Q.
Proof. intros H. apply num_le in H. rewrite !treeHeight_eq. lra. Qed.

Lemma treeRadius_anti h1 h2 : (h1 <= h2)%Q -> (treeRadius h2 <= treeRadius h1)%Q.
Proof. intros H. rewrite !treeRadius_eq. lra. Qed.

(** C7.  [generateTreePoints] returns 4000 points; point [i] has height
    [y = treeHeight i] and lies at radius [treeRadius (treeHeight i)] from
    the axis; the height is in [[-10, 10]] for every [i] below 4000 and
    does not decrease with [i]; the radius does not increase with the
    height (so not with [i] either), is 8 at height -10 and 0 at height
    10. *)
Theorem tree_height_bounded_monotone_radius_narrows :
  (forall k, exists pts k',
     generateTreePoints random_draws Math_sin Math_cos k = Some (pts, k') /\
     length pts = PARTICLE_COUNT /\
     forall i, i < PARTICLE_COUNT ->
       exists p, pts !! i = Some p /\
         ParticlePoint.y p = treeHeight i /\
         ParticlePoint.x p
           = (Math_cos (treeAngle i) * treeRadius (treeHeight i))%Q /\
         ParticlePoint.z p
           = (Math_sin (treeAngle i) * treeRadius (treeHeight i))%Q) /\
  (forall i, i < PARTICLE_COUNT ->
     (-10 <= treeHeight i)%Q /\ (treeHeight i <= 10)%Q) /\
  (forall i j, i <= j -> (treeHeight i <= treeHeight j)%Q) /\
  (forall h1 h2 : Q, (h1 <= h2)%Q -> (treeRadius h2 <= treeRadius h1)%Q) /\
  (forall i j, i <= j ->
     (treeRadius (treeHeight j) <= treeRadius (treeHeight i))%Q) /\
  (treeRadius (-10) == 8)%Q /\ (treeRadius 10 == 0)%Q.
Proof.
  split; [|split; [|split; [|split; [|split; [|split]]]]].
  - intros k.
    destruct (generateTreePoints_returns k) as (pts & k' & Hrun & Hlen & Hpts).
    exists pts, k'. split; [done|]. split; [done|].
    intros i Hi. destruct (Hpts i Hi) as (kj & Hp).
    eexists. split; [exact Hp|]. done.
  - intros i Hi.
    pose proof (num_le 0 i ltac:(lia)) as H0.
    pose proof (num_le i PARTICLE_COUNT ltac:(lia)) as H1.
    change (num 0) with 0%Q in H0. change (num PARTICLE_COUNT) with 4000%Q in H1.
    rewrite !treeHeight_eq. split; lra.
  - apply treeHeight_mono.
  - apply treeRadius_anti.
  - intros i j H. by apply treeRadius_anti, treeHeight_mono.
  - reflexivity.
  - reflexivity.
Qed.

Lemma ornament_cases r1 r2 :
  (ornament r1 r2 = RED <-> (0.95 < r1)%Q) /\
  (ornament r1 r2 = GOLD <-> (r1 <= 0.95)%Q /\ (0.95 < r2)%Q) /\
  (ornament r1 r2 = GREEN <-> (r1 <= 0.95)%Q /\ (r2 <= 0.95)%Q).
Proof.
  unfold ornament, Qgtb.
  destruct (Qle_bool r1 0.95) eqn:E1; destruct (Qle_bool r2 0.95) eqn:E2; simpl;
    repeat match goal with
    | H : Qle_bool _ _ = true |- _ => apply Qle_bool_iff in H
    | H : Qle_bool ?a ?b = false |- _ =>
        assert (b < a)%Q by
          (apply Qnot_le_lt; intros HH; apply Qle_bool_iff in HH; congruence);
        clear H
    end;
    (split; [|split]); split; try done; try (intros [? ?]); try intros ?;
    try lra; try discriminate.
Qed.

(** C4 (as amended).  Every tree particle is green, red or gold, the
    colours being three different ones, and which one is [ornament] of two
    consecutive draws [r1], [r2]: red exactly when [r1 > 0.95]; gold exactly
    when [r1 <= 0.95] and [r2 > 0.95]; green otherwise.  The generator makes
    one draw for a red particle and two for any other.  Over the 100 x 100
    equal cells of two uniform draws, red takes 5% of the cells, gold 4.75%
    and green 90.25%. *)
Theorem tree_ornament_colours :
  (forall k, exists pts k',
     generateTreePoints random_draws Math_sin Math_cos k = Some (pts, k') /\
     forall i, i < PARTICLE_COUNT ->
       exists p kj, pts !! i = Some p /\
         ParticlePoint.color p
           = ornament (random_draws kj) (random_draws (S kj))) /\
  (forall k,
     ornamentColor random_draws k =
       Some (ornament (random_draws k) (random_draws (S k)),
             if Qgtb (random_draws k) 0.95 then S k else S (S k))) /\
  (forall r1 r2 : Q,
     (ornament r1 r2 = RED <-> (0.95 < r1)%Q) /\
     (ornament r1 r2 = GOLD <-> (r1 <= 0.95)%Q /\ (0.95 < r2)%Q) /\
     (ornament r1 r2 = GREEN <-> (r1 <= 0.95)%Q /\ (r2 <= 0.95)%Q)) /\
  (isColor RED GOLD = false /\ isColor RED GREEN = false /\
   isColor GOLD GREEN = false) /\
  (share 100 (isColor RED) == 0.05)%Q /\
  (share 100 (isColor GOLD) == 0.0475)%Q /\
  (share 100 (isColor GREEN) == 0.9025)%Q.
Proof.
  split; [|split; [|split; [|split; [|split; [|split]]]]].
  - intros k.
    destruct (generateTreePoints_returns k) as (pts & k' & Hrun & Hlen & Hpts).
    exists pts, k'. split; [done|].
    intros i Hi. destruct (Hpts i Hi) as (kj & Hp).
    eexists _, kj. split; [exact Hp | done].
  - apply ornamentColor_eq.
  - apply ornament_cases.
  - by vm_compute.
  - by vm_compute.
  - by vm_compute.
  - by vm_compute.
Qed.

(** ** The text shape *)

Lemma textPoint_eq vp colorBase i acc k pixel :
  vp !! (i mod length vp) = Some pixel ->
  textPoint random_draws vp colorBase i acc k =
    Some (acc ++ [pixelPoint pixel (random_draws k) colorBase], S k).
Proof. intros H. unfold textPoint. by rewrite H. Qed.

Lemma candidate_exists (vp : list (Z * Z)) i :
  vp <> [] -> exists pixel, vp !! (i mod length vp) = Some pixel.
Proof.
  intros H. apply lookup_lt_is_Some_2, Nat.mod_upper_bound.
  destruct vp; [done | simpl; lia].
Qed.

(** The loop of [generateTextPoints] over any list of indices, for a
    non-empty candidate list: it never throws, makes one draw per index and
    appends the point of candidate [i mod length]. *)
Lemma text_loop vp colorBase idxs : vp <> [] -> forall acc k,
  exists pts,
    forEachM (textPoint random_draws vp colorBase) idxs acc k
      = Some (acc ++ pts, k + length idxs) /\
    length pts = length idxs /\
    forall j i, idxs !! j = Some i ->
      exists pixel, vp !! (i mod length vp) = Some pixel /\
        pts !! j = Some (pixelPoint pixel (random_draws (k + j)) colorBase).
Proof.
  intros Hvp. induction idxs as [|i idxs IH]; intros acc k.
  - exists []. simpl. rewrite app_nil_r, Nat.add_0_r. by repeat split.
  - destruct (candidate_exists vp i Hvp) as [pixel Hpx].
    simpl. unfold bind at 1. rewrite (textPoint_eq _ _ _ _ _ _ Hpx).
    destruct (IH (acc ++ [pixelPoint pixel (random_draws k) colorBase]) (S k))
      as (pts & Hrun & Hlen & Hpts).
    eexists (_ :: pts). rewrite Hrun, <- app_assoc. simpl.
    split; [f_equal; f_equal; lia|]. split; [lia|].
    intros [|j] i' Hj; simpl in Hj.
    + inversion Hj; subst i'. exists pixel. rewrite Nat.add_0_r. done.
    + destruct (Hpts j i' Hj) as (px & Hpx' & Hp).
      exists px. split; [done|]. simpl. rewrite Hp. do 3 f_equal. lia.
Qed.

Lemma generateTextPoints_nonempty fillText text colorBase k :
  let validPixels := scanPixels (fillText text (fontSizeOf text)) in
  validPixels <> [] ->
  exists pts,
    generateTextPoints random_draws (Some fillText) text colorBase k
      = Some (pts, k + PARTICLE_COUNT) /\
    length pts = PARTICLE_COUNT /\
    forall i, i < PARTICLE_COUNT ->
      exists pixel, validPixels !! (i mod length validPixels) = Some pixel /\
        pts !! i = Some (pixelPoint pixel (random_draws (k + i)) colorBase).
Proof.
  intros vp Hvp. unfold generateTextPoints. fold vp.
  destruct (length vp =? 0) eqn:E.
  { apply Nat.eqb_eq in E. destruct vp; [done | discriminate]. }
  unfold forLoop.
  destruct (text_loop vp colorBase (seq 0 PARTICLE_COUNT) Hvp [] k)
    as (pts & Hrun & Hlen & Hpts).
  rewrite length_seq in Hrun, Hlen.
  exists pts. split; [exact Hrun|]. split; [exact Hlen|].
  intros i Hi. apply Hpts. by apply lookup_seq_lt.
Qed.

Lemma generateTextPoints_empty fillText text colorBase k :
  scanPixels (fillText text (fontSizeOf text)) = [] ->
  generateTextPoints random_draws (Some fillText) text colorBase k = Some ([], k).
Proof. intros H. unfold generateTextPoints. by rewrite H. Qed.

Lemma generateTextPoints_no_context text colorBase k :
  generateTextPoints random_draws None text colorBase k = Some ([], k).
Proof. reflexivity. Qed.


(** ** The scan and the dispatch *)

Lemma scanPixels_elem data x y :
  (x, y) ∈ scanPixels data <->
  y ∈ stride2 CANVAS_HEIGHT /\ x ∈ stride2 CANVAS_WIDTH /\ isWhite data x y = true.
Proof.
  unfold scanPixels. rewrite list_elem_of_In, in_flat_map. split.
  - intros (y' & Hy & Hin). apply in_flat_map in Hin as (x' & Hx & Hin).
    destruct (isWhite data x' y') eqn:E; [|by destruct Hin].
    destruct Hin as [Heq|[]]. inversion Heq; subst x' y'.
    by rewrite !list_elem_of_In.
  - intros (Hy & Hx & Hw). exists y. rewrite <- list_elem_of_In. split; [done|].
    apply in_flat_map. exists x. rewrite <- list_elem_of_In. split; [done|].
    rewrite Hw. by left.
Qed.

Lemma scanPixels_dark data :
  Forall (fun red => (red <= 128)%Z) data -> scanPixels data = [].
Proof.
  intros Hdark. destruct (scanPixels data) as [|[x y] l] eqn:E; [done|].
  assert (Hin : (x, y) ∈ scanPixels data) by (rewrite E; left).
  apply scanPixels_elem in Hin as (_ & _ & Hw). unfold isWhite in Hw.
  destruct (data !! _) as [red|] eqn:Hred; [|done].
  rewrite Forall_lookup in Hdark. specialize (Hdark _ _ Hred).
  apply Z.ltb_lt in Hw. lia.
Qed.

Lemma scanPixels_blackImage : scanPixels blackImage = [].
Proof. apply scanPixels_dark, Forall_replicate. lia. Qed.


Lemma getPointsForStage_dispatch stage :
  getPointsForStage random_draws Math_sin Math_cos canvas2d stage =
    match stageText stage with
    | Some (text, colorBase) =>
        generateTextPoints random_draws canvas2d text colorBase
    | None => generateTreePoints random_draws Math_sin Math_cos
    end.
Proof.
  unfold getPointsForStage, stageText.
  destruct (String.eqb stage "TREE"); [done|].
  destruct (String.eqb stage "5" || String.eqb stage "4" || String.eqb stage "3"
            || String.eqb stage "2" || String.eqb stage "1"); [done|].
  by destruct (String.eqb stage "HAPPY_NEW_YEAR").
Qed.

Lemma generateTextPoints_returns text colorBase k :
  exists pts k',
    generateTextPoints random_draws canvas2d text colorBase k = Some (pts, k') /\
    (length pts = PARTICLE_COUNT \/ pts = []) /\
    (pts = [] <->
     canvas2d = None \/
     exists fillText, canvas2d = Some fillText /\
       scanPixels (fillText text (fontSizeOf text)) = []).
Proof.
  destruct canvas2d as [fillText|] eqn:Ec.
  - destruct (scanPixels (fillText text (fontSizeOf text))) as [|px vp] eqn:E.
    + exists [], k. rewrite generateTextPoints_empty by done.
      split; [done|]. split; [by right|]. split; [|done].
      intros _. right. by exists fillText.
    + destruct (generateTextPoints_nonempty fillText text colorBase k)
        as (pts & Hrun & Hlen & _); [by rewrite E|].
      exists pts, (k + PARTICLE_COUNT). split; [done|]. split; [by left|].
      split.
      * intros ->. discriminate Hlen.
      * intros [?|(f & Hf & Hs)]; [done|].
        inversion Hf; subst f. rewrite E in Hs. done.
  - exists [], k. split; [done|]. split; [by right|]. split; [|done].
    intros _. by left.
Qed.

Lemma getPointsForStage_returns stage k :
  exists pts k',
    getPointsForStage random_draws Math_sin Math_cos canvas2d stage k
      = Some (pts, k') /\
    (length pts = PARTICLE_COUNT \/ pts = []) /\
    (pts = [] <->
     exists text colorBase, stageText stage = Some (text, colorBase) /\
       (canvas2d = None \/
        exists fillText, canvas2d = Some fillText /\
          scanPixels (fillText text (fontSizeOf text)) = [])).
Proof.
  rewrite getPointsForStage_dispatch.
  destruct (stageText stage) as [[text colorBase]|].
  - destruct (generateTextPoints_returns text colorBase k)
      as (pts & k' & Hrun & Hlen & Hempty).
    exists pts, k'. split; [done|]. split; [done|]. rewrite Hempty. split.
    + intros H. by exists text, colorBase.
    + intros (t & c & Heq & H). by inversion Heq; subst.
  - destruct (generateTreePoints_returns k) as (pts & k' & Hrun & Hlen & _).
    exists pts, k'. split; [done|]. split; [by left|]. split.
    + intros ->. discriminate Hlen.
    + intros (t & c & Heq & _). done.
Qed.

End ShapeGenerator.

(** * Particle scene: typed arrays *)

Section TypedArrays.

Implicit Types (s : Scene) (a b i j : nat) (v : Q).

Lemma store_refs a i v s :
  particlesRef (store a i v s) = particlesRef s /\
  targetPositionsRef (store a i v s) = targetPositionsRef s /\
  targetColorsRef (store a i v s) = targetColorsRef s.
Proof. done. Qed.

Lemma store_other a i v s b : a <> b -> heap (store a i v s) !! b = heap s !! b.
Proof. intros H. unfold store. simpl. by rewrite lookup_alter_ne. Qed.

Lemma store_same a i v s : heap (store a i v s) !! a = <[i := v]> <$> heap s !! a.
Proof. unfold store. simpl. by rewrite lookup_alter_eq. Qed.

(** A store changes the value read at the same address and index, and
    nothing else; what was [undefined] stays [undefined]. *)
Lemma load_store a i v b j s :
  load b j (store a i v s) =
    (fun old => if decide (a = b /\ i = j) then v else old) <$> load b j s.
Proof.
  unfold load. destruct (decide (a = b)) as [->|Hab].
  - rewrite store_same. destruct (heap s !! b) as [l|]; simpl; [|done].
    destruct (decide (i = j)) as [->|Hij].
    + destruct (decide (j < length l)) as [Hlt|Hge].
      * rewrite list_lookup_insert_eq by done.
        destruct (lookup_lt_is_Some_2 l j Hlt) as [w Hw]. rewrite Hw. simpl.
        by rewrite decide_True.
      * rewrite list_insert_ge by lia.
        rewrite (lookup_ge_None_2 l j) by lia. done.
    + rewrite list_lookup_insert_ne by done.
      destruct (l !! j); simpl; [|done]. rewrite decide_False; [done | tauto].
  - rewrite store_other by done.
    destruct (heap s !! b ≫= (.!! j)); simpl; [|done].
    rewrite decide_False; [done | tauto].
Qed.

Lemma store_length a i v s b :
  (length <$> heap (store a i v s) !! b) = (length <$> heap s !! b).
Proof.
  destruct (decide (a = b)) as [->|H].
  - rewrite store_same. destruct (heap s !! b); simpl; [|done].
    by rewrite length_insert.
  - by rewrite store_other.
Qed.

Lemma newFloat32Array_spec n s :
  let a := (newFloat32Array n s).1 in
  let s' := (newFloat32Array n s).2 in
  (a ∉ dom (heap s)) /\
  heap s' = <[a := replicate n 0%Q]> (heap s) /\
  particlesRef s' = particlesRef s /\
  targetPositionsRef s' = targetPositionsRef s /\
  targetColorsRef s' = targetColorsRef s.
Proof. simpl. split; [apply is_fresh | done]. Qed.

End TypedArrays.

(** Case analysis on every [decide] in the goal, closed by arithmetic. *)
Ltac channel_cases :=
  repeat match goal with
  | |- context [decide ?P] => destruct (decide P)
  end;
  try reflexivity; try (exfalso; lia); try (exfalso; tauto).

Section StageEffect.

Implicit Types (s : Scene) (a b i j : nat) (v : Q).

(** The proofs never need the value 4000, only that it is a number. *)
#[local] Opaque particleCount.

(** ** The stage effect: filling the target arrays *)

Lemma split3 j : exists q r, j = q * 3 + r /\ r < 3 /\ j / 3 = q /\ j mod 3 = r.
Proof.
  exists (j / 3), (j mod 3).
  pose proof (Nat.div_mod_eq j 3). pose proof (Nat.mod_upper_bound j 3).
  lia.
Qed.

Lemma load_copyPoint P C s i p b j :
  P <> C ->
  load b j (copyPoint P C s (i, p)) =
    (fun old =>
       if decide (i < particleCount /\ j / 3 = i) then
         if decide (b = P) then positionChannel p (j mod 3)
         else if decide (b = C) then colorChannel p (j mod 3)
         else old
       else old) <$> load b j s.
Proof.
  intros HPC. unfold copyPoint.
  destruct (split3 j) as (q & r & Hj & Hr & -> & ->).
  destruct (i <? particleCount) eqn:Hi.
  - apply Nat.ltb_lt in Hi. rewrite !load_store.
    destruct (load b j s) as [old|]; simpl; [|done]. f_equal.
    destruct r as [|[|[|r]]]; [| | |lia]; simpl; channel_cases.
  - apply Nat.ltb_ge in Hi. destruct (load b j s) as [old|]; simpl; [|done].
    f_equal. channel_cases.
Qed.

Lemma load_hidePoint P C s i b j :
  load b j (hidePoint P C s i) =
    (fun old =>
       if decide (j / 3 = i /\ (b = P \/ b = C)) then 0%Q else old)
    <$> load b j s.
Proof.
  unfold hidePoint. destruct (split3 j) as (q & r & Hj & Hr & -> & _).
  rewrite !load_store.
  destruct (load b j s) as [old|]; simpl; [|done]. f_equal.
  channel_cases.
Qed.

Lemma sameExcept_refl P C s : sameExcept P C s s.
Proof. by repeat split. Qed.

Lemma sameExcept_trans P C s1 s2 s3 :
  sameExcept P C s1 s2 -> sameExcept P C s2 s3 -> sameExcept P C s1 s3.
Proof.
  intros (A1 & A2 & A3 & A4 & A5) (B1 & B2 & B3 & B4 & B5).
  split; [congruence|]. split; [congruence|]. split; [congruence|]. split.
  - intros a H1 H2. rewrite B4, A4; done.
  - intros a. by rewrite B5, A5.
Qed.

Lemma sameExcept_store_l P C i v s : sameExcept P C s (store P i v s).
Proof.
  split; [done|]. split; [done|]. split; [done|]. split.
  - intros a H _. by apply store_other.
  - intros a. apply store_length.
Qed.

Lemma sameExcept_store_r P C i v s : sameExcept P C s (store C i v s).
Proof.
  split; [done|]. split; [done|]. split; [done|]. split.
  - intros a _ H. by apply store_other.
  - intros a. apply store_length.
Qed.

Lemma sameExcept_copyPoint P C s ip : sameExcept P C s (copyPoint P C s ip).
Proof.
  destruct ip as [i p]. unfold copyPoint.
  destruct (i <? particleCount); [|apply sameExcept_refl].
  repeat (eapply sameExcept_trans;
          [|first [apply sameExcept_store_r | apply sameExcept_store_l]]).
  apply sameExcept_refl.
Qed.

Lemma sameExcept_hidePoint P C s i : sameExcept P C s (hidePoint P C s i).
Proof.
  unfold hidePoint.
  repeat (eapply sameExcept_trans;
          [|first [apply sameExcept_store_r | apply sameExcept_store_l]]).
  apply sameExcept_refl.
Qed.

Lemma sameExcept_foldl {X} (body : Scene -> X -> Scene) P C :
  (forall s x, sameExcept P C s (body s x)) ->
  forall l s, sameExcept P C s (foldl body s l).
Proof.
  intros Hbody l. induction l as [|x l IH]; intros s; simpl.
  - apply sameExcept_refl.
  - eapply sameExcept_trans; [apply Hbody | apply IH].
Qed.

Lemma load_forEach_copy P C :
  P <> C -> forall points s b j,
  load b j (foldl (copyPoint P C) s (imap pair points)) =
    (fun old =>
       match points !! (j / 3) with
       | Some p =>
           if decide (j / 3 < particleCount) then
             if decide (b = P) then positionChannel p (j mod 3)
             else if decide (b = C) then colorChannel p (j mod 3)
             else old
           else old
       | None => old
       end) <$> load b j s.
Proof.
  intros HPC points. induction points as [|p points IH] using rev_ind;
    intros s b j.
  - simpl. by destruct (load b j s).
  - rewrite imap_app, foldl_app. cbn [imap foldl]. rewrite Nat.add_0_r.
    rewrite load_copyPoint by done. rewrite IH.
    generalize (j / 3) as q, (j mod 3) as r. intros q r.
    destruct (load b j s) as [old|]; simpl; [|done]. f_equal.
    destruct (decide (q < length points)) as [Hlt|Hge].
    + rewrite lookup_app_l by done.
      destruct (points !! q); channel_cases.
    + destruct (decide (q = length points)) as [E|Hne].
      * rewrite E, list_lookup_middle by done.
        rewrite (lookup_ge_None_2 points) by lia.
        channel_cases.
      * rewrite (lookup_ge_None_2 points) by lia.
        rewrite (lookup_ge_None_2 (points ++ [p]))
          by (rewrite length_app; simpl; lia).
        channel_cases.
Qed.

Lemma load_pad_loop P C n : forall start s b j,
  load b j (foldl (hidePoint P C) s (seq start n)) =
    (fun old =>
       if decide ((start <= j / 3 < start + n) /\ (b = P \/ b = C))
       then 0%Q else old) <$> load b j s.
Proof.
  induction n as [|n IH]; intros start s b j.
  - simpl. destruct (load b j s) as [old|]; simpl; [|done].
    rewrite decide_False by lia. done.
  - rewrite seq_S, foldl_app. simpl. rewrite load_hidePoint, IH.
    destruct (load b j s) as [old|]; simpl; [|done]. f_equal.
    channel_cases.
Qed.

Lemma load_fresh_array n s j :
  let a := (newFloat32Array n s).1 in
  load a j (newFloat32Array n s).2 = if decide (j < n) then Some 0%Q else None.
Proof.
  simpl. unfold load. simpl. rewrite lookup_insert_eq. simpl.
  destruct (decide (j < n)).
  - by apply lookup_replicate_2.
  - apply lookup_replicate_None. lia.
Qed.

(** The state in which the two new arrays are allocated and filled. *)
Lemma fillTargets_spec points s :
  exists P C sf,
    fillTargets points s = (P, C, sf) /\
    (P ∉ dom (heap s)) /\ (C ∉ dom (heap s)) /\ P <> C /\
    particlesRef sf = particlesRef s /\
    targetPositionsRef sf = targetPositionsRef s /\
    targetColorsRef sf = targetColorsRef s /\
    (forall a, a ∈ dom (heap s) -> heap sf !! a = heap s !! a) /\
    (length <$> heap sf !! P) = Some (particleCount * 3) /\
    (length <$> heap sf !! C) = Some (particleCount * 3) /\
    (forall j, load P j sf =
       if decide (j < particleCount * 3)
       then Some (normalizedPosition points j) else None) /\
    (forall j, load C j sf =
       if decide (j < particleCount * 3)
       then Some (normalizedColor points j) else None).
Proof.
  unfold fillTargets.
  destruct (newFloat32Array (particleCount * 3) s) as [P s1] eqn:E1.
  destruct (newFloat32Array (particleCount * 3) s1) as [C s2] eqn:E2.
  pose proof (newFloat32Array_spec (particleCount * 3) s) as H1.
  pose proof (newFloat32Array_spec (particleCount * 3) s1) as H2.
  pose proof (load_fresh_array (particleCount * 3) s) as L1.
  pose proof (load_fresh_array (particleCount * 3) s1) as L2.
  rewrite E1 in H1, L1. rewrite E2 in H2, L2.
  cbn beta iota zeta delta [fst snd] in H1, H2, L1, L2.
  destruct H1 as (HP & Hh1 & R1a & R1b & R1c).
  destruct H2 as (HC & Hh2 & R2a & R2b & R2c).
  assert (HPC : P <> C).
  { intros ->. apply HC. rewrite Hh1. apply elem_of_dom.
    rewrite lookup_insert_eq. apply (mk_is_Some _ _ eq_refl). }
  assert (HCs : C ∉ dom (heap s)).
  { intros HC'. apply HC. rewrite Hh1, dom_insert. set_solver. }
  set (s3 := foldl (copyPoint P C) s2 (imap pair points)).
  set (sf := foldl (hidePoint P C) s3
               (seq (length points) (particleCount - length points))).
  assert (S23 : sameExcept P C s2 s3)
    by (apply sameExcept_foldl; intros; apply sameExcept_copyPoint).
  assert (S3f : sameExcept P C s3 sf)
    by (apply sameExcept_foldl; intros; apply sameExcept_hidePoint).
  destruct (sameExcept_trans _ _ _ _ _ S23 S3f) as (Ra & Rb & Rc & Hother & Hlen).
  assert (LP2 : forall j, load P j s2 =
                  if decide (j < particleCount * 3) then Some 0%Q else None).
  { intros j. unfold load. rewrite Hh2, lookup_insert_ne by done.
    specialize (L1 j). unfold load in L1. exact L1. }
  exists P, C, sf. split; [reflexivity|].
  split; [done|]. split; [done|]. split; [done|].
  split; [congruence|]. split; [congruence|]. split; [congruence|].
  split; [|split; [|split; [|split]]].
  - intros a Ha.
    rewrite Hother; [| intros ->; done | intros ->; done].
    rewrite Hh2, Hh1, !lookup_insert_ne; [done | intros ->; done | intros ->; done].
  - rewrite Hlen, Hh2, lookup_insert_ne, Hh1, lookup_insert_eq by done.
    cbn [fmap option_fmap option_map]. by rewrite length_replicate.
  - rewrite Hlen, Hh2, lookup_insert_eq.
    cbn [fmap option_fmap option_map]. by rewrite length_replicate.
  - intros j. subst sf s3.
    rewrite load_pad_loop, load_forEach_copy, LP2 by done.
    unfold normalizedPosition.
    destruct (split3 j) as (q & r & Hj & Hr & -> & ->).
    destruct (decide (j < particleCount * 3)); [|done].
    cbn [fmap option_fmap option_map]. f_equal.
    destruct (points !! q) as [p|] eqn:Hq.
    + apply lookup_lt_Some in Hq. channel_cases.
    + channel_cases.
  - intros j. subst sf s3.
    rewrite load_pad_loop, load_forEach_copy, L2 by done.
    unfold normalizedColor.
    destruct (split3 j) as (q & r & Hj & Hr & -> & ->).
    destruct (decide (j < particleCount * 3)); [|done].
    cbn [fmap option_fmap option_map]. f_equal.
    destruct (points !! q) as [p|] eqn:Hq.
    + apply lookup_lt_Some in Hq. channel_cases.
    + channel_cases.
Qed.

Lemma updateTargets_spec points s :
  exists P C sf,
    fillTargets points s = (P, C, sf) /\
    updateTargets points s
      = setTargetColorsRef (Some C) (setTargetPositionsRef (Some P) sf) /\
    targetPositionsRef (updateTargets points s) = Some P /\
    targetColorsRef (updateTargets points s) = Some C /\
    particlesRef (updateTargets points s) = particlesRef s /\
    heap (updateTargets points s) = heap sf.
Proof.
  destruct (fillTargets_spec points s) as (P & C & sf & Hfill & _ & _ & _ & Hr & _).
  exists P, C, sf. unfold updateTargets. rewrite Hfill. by repeat split.
Qed.

Lemma load_updateTargets_heap points s a j sf :
  heap (updateTargets points s) = heap sf ->
  load a j (updateTargets points s) = load a j sf.
Proof. intros H. unfold load. by rewrite H. Qed.

(** The normalised buffers of any point list, in the scene after the stage
    effect. *)
Lemma updateTargets_buffers points s :
  exists P C,
    (P ∉ dom (heap s)) /\ (C ∉ dom (heap s)) /\ P <> C /\
    targetPositionsRef (updateTargets points s) = Some P /\
    targetColorsRef (updateTargets points s) = Some C /\
    particlesRef (updateTargets points s) = particlesRef s /\
    (forall a, a ∈ dom (heap s) ->
       heap (updateTargets points s) !! a = heap s !! a) /\
    (length <$> heap (updateTargets points s) !! P) = Some (particleCount * 3) /\
    (length <$> heap (updateTargets points s) !! C) = Some (particleCount * 3) /\
    (forall j, load P j (updateTargets points s) =
       if decide (j < particleCount * 3)
       then Some (normalizedPosition points j) else None) /\
    (forall j, load C j (updateTargets points s) =
       if decide (j < particleCount * 3)
       then Some (normalizedColor points j) else None).
Proof.
  destruct (fillTargets_spec points s)
    as (P & C & sf & Hfill & HP & HC & HPC & Hr & _ & _ & Hold & HlP & HlC & LP & LC).
  destruct (updateTargets_spec points s)
    as (P' & C' & sf' & Hfill' & _ & HrP & HrC & Hrp & Hheap).
  rewrite Hfill in Hfill'. inversion Hfill'; subst P' C' sf'.
  exists P, C. rewrite Hheap.
  split; [done|]. split; [done|]. split; [done|]. split; [done|].
  split; [done|]. split; [congruence|]. split; [done|]. split; [done|].
  split; [done|]. split.
  - intros j. rewrite (load_updateTargets_heap _ _ _ _ _ Hheap). apply LP.
  - intros j. rewrite (load_updateTargets_heap _ _ _ _ _ Hheap). apply LC.
Qed.

End StageEffect.

(** * The target buffers of a stage *)

Section TargetBuffers.

Variable random_draws : nat -> Q.
Variables Math_sin Math_cos : Q -> Q.
Variable canvas2d : option (string -> Z -> list Z).

#[local] Opaque particleCount.

Lemma normalized_at points i c :
  c < 3 ->
  normalizedPosition points (i * 3 + c)
    = match points !! i with Some p => positionChannel p c | None => 0%Q end /\
  normalizedColor points (i * 3 + c)
    = match points !! i with Some p => colorChannel p c | None => 0%Q end.
Proof.
  intros Hc. unfold normalizedPosition, normalizedColor.
  replace ((i * 3 + c) / 3) with i by (apply Nat.div_unique with c; lia).
  replace ((i * 3 + c) mod 3) with c by (apply Nat.mod_unique with i; lia).
  done.
Qed.

Lemma stageEffect_eq stage s k pts k' :
  getPointsForStage random_draws Math_sin Math_cos canvas2d stage k
    = Some (pts, k') ->
  stageEffect random_draws Math_sin Math_cos canvas2d stage s k
    = Some (updateTargets pts s, k').
Proof. intros H. unfold stageEffect, bind. by rewrite H. Qed.

(** C1 (as amended).  With capacity 4000: for every stage value
    [getPointsForStage] returns, and its cloud has 4000 entries or none;
    it has none exactly when the stage is a text stage and the canvas gave
    no 2D context or no sampled pixel was white.  Whatever the length of
    the cloud, shorter or longer than the capacity, the two target arrays
    that the stage effect builds from it have 3 x 4000 entries: particle
    [i] below 4000 gets point [i] when the cloud has one and the origin
    with colour zero when it has not, and points from index 4000 on are
    dropped. *)
Theorem stage_cloud_has_capacity_or_is_empty :
  PARTICLE_COUNT = 4000 /\ particleCount = 4000 /\
  (forall stage k, exists pts k',
     getPointsForStage random_draws Math_sin Math_cos canvas2d stage k
       = Some (pts, k') /\
     (length pts = PARTICLE_COUNT \/ length pts = 0) /\
     (length pts = 0 <->
      exists text colorBase, stageText stage = Some (text, colorBase) /\
        (canvas2d = None \/
         exists fillText, canvas2d = Some fillText /\
           scanPixels (fillText text (fontSizeOf text)) = [])) /\
     forall s,
       stageEffect random_draws Math_sin Math_cos canvas2d stage s k
         = Some (updateTargets pts s, k')) /\
  (forall (points : list ParticlePoint.t) (s : Scene), exists P C,
     targetPositionsRef (updateTargets points s) = Some P /\
     targetColorsRef (updateTargets points s) = Some C /\
     (length <$> heap (updateTargets points s) !! P) = Some (particleCount * 3) /\
     (length <$> heap (updateTargets points s) !! C) = Some (particleCount * 3) /\
     forall i c, i < particleCount -> c < 3 ->
       load P (i * 3 + c) (updateTargets points s)
         = Some (match points !! i with
                 | Some p => positionChannel p c
                 | None => 0%Q
                 end) /\
       load C (i * 3 + c) (updateTargets points s)
         = Some (match points !! i with
                 | Some p => colorChannel p c
                 | None => 0%Q
                 end)).
Proof.
  split; [reflexivity|]. split; [by vm_compute|]. split.
  - intros stage k.
    destruct (getPointsForStage_returns random_draws Math_sin Math_cos canvas2d stage k)
      as (pts & k' & Hrun & Hlen & Hempty).
    exists pts, k'. split; [done|]. split; [|split].
    + destruct Hlen as [?| ->]; [by left | by right].
    + rewrite <- Hempty. split; [by destruct pts | by intros ->].
    + intros s. by apply stageEffect_eq.
  - intros points s.
    destruct (updateTargets_buffers points s)
      as (P & C & _ & _ & _ & HrP & HrC & _ & _ & HlP & HlC & LP & LC).
    exists P, C. split; [done|]. split; [done|]. split; [done|]. split; [done|].
    intros i c Hi Hc.
    destruct (normalized_at points i c Hc) as [Ep Ec].
    rewrite LP, LC, !decide_True by lia. by rewrite Ep, Ec.
Qed.

(** C1 as stated fails on a canvas that stays black: for stage "5" the
    cloud of [getPointsForStage] has 0 entries, not 4000. *)
Lemma black_canvas_gives_empty_cloud :
  getPointsForStage (fun _ => 0%Q) (fun _ => 0%Q) (fun _ => 0%Q)
    (Some (fun _ _ => blackImage)) "5" 0 = Some ([], 0) /\
  length ([] : list ParticlePoint.t) <> PARTICLE_COUNT.
Proof.
  split; [|discriminate].
  rewrite getPointsForStage_dispatch. change (stageText "5") with
    (Some ("5"%string, (0.4, 0.6, 1.0)%Q)).
  apply generateTextPoints_empty, scanPixels_blackImage.
Qed.

(** C5.  When the scan finds no white pixel, [generateTextPoints] returns
    the empty cloud (it does not throw and makes no draw), and the stage
    effect on the empty cloud installs two arrays of 3 x 4000 entries in
    which every channel of every particle is 0: position at the origin,
    colour zero. *)
Theorem empty_text_cloud_hides_every_particle
    (fillText : string -> Z -> list Z) (text : string)
    (colorBase : Q * Q * Q) (k : nat) (s : Scene) :
  scanPixels (fillText text (fontSizeOf text)) = [] ->
  generateTextPoints random_draws (Some fillText) text colorBase k
    = Some ([], k) /\
  exists P C,
    targetPositionsRef (updateTargets [] s) = Some P /\
    targetColorsRef (updateTargets [] s) = Some C /\
    (length <$> heap (updateTargets [] s) !! P) = Some (particleCount * 3) /\
    (length <$> heap (updateTargets [] s) !! C) = Some (particleCount * 3) /\
    forall i c, i < particleCount -> c < 3 ->
      load P (i * 3 + c) (updateTargets [] s) = Some 0%Q /\
      load C (i * 3 + c) (updateTargets [] s) = Some 0%Q.
Proof.
  intros Hscan. split; [apply generateTextPoints_empty, Hscan|].
  destruct (updateTargets_buffers [] s)
    as (P & C & _ & _ & _ & HrP & HrC & _ & _ & HlP & HlC & LP & LC).
  assert (Hzero : forall j, normalizedPosition [] j = 0%Q /\ normalizedColor [] j = 0%Q).
  { intros j. unfold normalizedPosition, normalizedColor.
    rewrite lookup_nil. split; reflexivity. }
  revert HrP HrC HlP HlC LP LC. generalize (updateTargets [] s). intros s'.
  intros HrP HrC HlP HlC LP LC.
  exists P, C. split; [exact HrP|]. split; [exact HrC|].
  split; [exact HlP|]. split; [exact HlC|].
  intros i c Hi Hc. rewrite LP, LC, !decide_True by lia.
  destruct (Hzero (i * 3 + c)) as [-> ->]. split; reflexivity.
Qed.

End TargetBuffers.

Lemma empty_text_cloud_on_black_canvas :
  generateTextPoints (fun _ => 0%Q) (Some (fun _ _ => blackImage)) "5"
    (0.4, 0.6, 1.0)%Q 0 = Some ([], 0) /\
  exists P C,
    targetPositionsRef (updateTargets [] emptyScene) = Some P /\
    targetColorsRef (updateTargets [] emptyScene) = Some C /\
    (length <$> heap (updateTargets [] emptyScene) !! P) = Some (particleCount * 3) /\
    (length <$> heap (updateTargets [] emptyScene) !! C) = Some (particleCount * 3) /\
    forall i c, i < particleCount -> c < 3 ->
      load P (i * 3 + c) (updateTargets [] emptyScene) = Some 0%Q /\
      load C (i * 3 + c) (updateTargets [] emptyScene) = Some 0%Q.
Proof.
  apply (empty_text_cloud_hides_every_particle (fun _ => 0%Q)
           (fun _ _ => blackImage) "5" (0.4, 0.6, 1.0)%Q 0 emptyScene).
  apply scanPixels_dark, Forall_replicate. lia.
Defined.

(** * Replacing the target buffers *)

Section TargetSwap.

#[local] Opaque particleCount.

(** C9.  The stage effect allocates two arrays at addresses that were not
    in use, writes only into these two, and assigns the two refs after the
    last write.  While the arrays are being filled, after any number of
    iterations of the copy loop and of the pad loop, the refs still name the
    arrays installed before and every array that existed before holds what
    it held; the same is true of the old arrays once the refs are
    assigned.  The arrays the refs then name are complete: 3 x 4000 entries
    each, all of them those of the one cloud the effect was given. *)
Theorem target_swap_never_writes_old_buffers
    (points : list ParticlePoint.t) (s : Scene) :
  exists P C sf,
    fillTargets points s = (P, C, sf) /\
    (P ∉ dom (heap s)) /\ (C ∉ dom (heap s)) /\ P <> C /\
    (forall n m,
       let allocated :=
         (newFloat32Array (particleCount * 3)
            (newFloat32Array (particleCount * 3) s).2).2 in
       let during :=
         foldl (hidePoint P C)
           (foldl (copyPoint P C) allocated (take n (imap pair points)))
           (take m (seq (length points) (particleCount - length points))) in
       targetPositionsRef during = targetPositionsRef s /\
       targetColorsRef during = targetColorsRef s /\
       particlesRef during = particlesRef s /\
       forall a, a ∈ dom (heap s) -> heap during !! a = heap s !! a) /\
    targetPositionsRef sf = targetPositionsRef s /\
    targetColorsRef sf = targetColorsRef s /\
    updateTargets points s
      = setTargetColorsRef (Some C) (setTargetPositionsRef (Some P) sf) /\
    targetPositionsRef (updateTargets points s) = Some P /\
    targetColorsRef (updateTargets points s) = Some C /\
    (forall a, a ∈ dom (heap s) ->
       heap (updateTargets points s) !! a = heap s !! a) /\
    (forall j, load P j (updateTargets points s) =
       if decide (j < particleCount * 3)
       then Some (normalizedPosition points j) else None) /\
    (forall j, load C j (updateTargets points s) =
       if decide (j < particleCount * 3)
       then Some (normalizedColor points j) else None).
Proof.
  destruct (fillTargets_spec points s)
    as (P & C & sf & Hfill & HP & HC & HPC & Hr & HrP & HrC & Hold & _).
  destruct (updateTargets_buffers points s)
    as (P' & C' & _ & _ & _ & HuP & HuC & _ & Hold' & _ & _ & LP & LC).
  destruct (updateTargets_spec points s)
    as (P2 & C2 & sf2 & Hfill2 & Hupd & HuP2 & HuC2 & _).
  rewrite Hfill in Hfill2. inversion Hfill2; subst P2 C2 sf2.
  rewrite HuP in HuP2. rewrite HuC in HuC2.
  inversion HuP2; subst P'. inversion HuC2; subst C'.
  exists P, C, sf. split; [exact Hfill|].
  split; [exact HP|]. split; [exact HC|]. split; [exact HPC|].
  split; [|split; [exact HrP|split; [exact HrC|split; [exact Hupd|
    split; [exact HuP|split; [exact HuC|split; [exact Hold'|
    split; [exact LP|exact LC]]]]]]]].
  intros n m allocated during.
  assert (EP : P = (newFloat32Array (particleCount * 3) s).1).
  { unfold fillTargets, newFloat32Array in Hfill.
    cbv beta iota zeta in Hfill. unfold newFloat32Array. cbn [fst snd].
    by inversion Hfill. }
  assert (EC : C = (newFloat32Array (particleCount * 3)
                      (newFloat32Array (particleCount * 3) s).2).1).
  { unfold fillTargets, newFloat32Array in Hfill.
    cbv beta iota zeta in Hfill. unfold newFloat32Array. cbn [fst snd].
    by inversion Hfill. }
  pose proof (newFloat32Array_spec (particleCount * 3) s) as H1.
  pose proof (newFloat32Array_spec (particleCount * 3)
                (newFloat32Array (particleCount * 3) s).2) as H2.
  cbv zeta in H1, H2. rewrite <- EP in H1. rewrite <- EC in H2.
  fold allocated in H2.
  destruct H1 as (_ & Hh1 & R1a & R1b & R1c).
  destruct H2 as (_ & Hh2 & R2a & R2b & R2c).
  assert (S1 : sameExcept P C allocated during).
  { subst during.
    apply sameExcept_trans
      with (foldl (copyPoint P C) allocated (take n (imap pair points))).
    - apply sameExcept_foldl. intros; apply sameExcept_copyPoint.
    - apply sameExcept_foldl. intros; apply sameExcept_hidePoint. }
  destruct S1 as (Ra & Rb & Rc & Hother & _).
  split; [congruence|]. split; [congruence|]. split; [congruence|].
  intros a Ha.
  rewrite Hother; [| intros ->; apply HP, Ha | intros ->; apply HC, Ha].
  rewrite Hh2, Hh1, !lookup_insert_ne;
    [reflexivity | intros ->; apply HP, Ha | intros ->; apply HC, Ha].
Qed.

End TargetSwap.

(** * Morph animator *)

Section MorphAnimator.

Variables Math_sin Math_cos : Q -> Q.

#[local] Opaque particleCount.

Implicit Types (s : Scene) (a b i j : nat) (v : Q).












(** ** One frame, and many *)



(** ** The interpolation step on numbers *)
















End MorphAnimator.

Section RestScene.

#[local] Opaque particleCount.



End RestScene.

(** * Instances on concrete inputs *)


(** C4 as stated fails: with the same first draw 0.5 the first tree
    particle is gold when the second draw is 0.99 and green when it is 0.5,
    and two draws were made for it; and gold takes 4.75% of the cells of
    two uniform draws, not the 5% that red takes. *)
Lemma ornament_colour_needs_second_draw :
  let drawsA := fun k : nat => if k =? 1 then 0.99%Q else 0.5%Q in
  let drawsB := fun _ : nat => 0.5%Q in
  let zero := fun _ : Q => 0%Q in
  drawsA 0 = drawsB 0 /\
  ornamentColor drawsA 0 = Some (GOLD, 2) /\
  ornamentColor drawsB 0 = Some (GREEN, 2) /\
  (generateTreePoints drawsA zero zero 0
     ≫= fun r => ParticlePoint.color <$> r.1 !! 0) = Some GOLD /\
  (generateTreePoints drawsB zero zero 0
     ≫= fun r => ParticlePoint.color <$> r.1 !! 0) = Some GREEN /\
  (share 100 (isColor GOLD) == 0.0475)%Q /\
  ~ (share 100 (isColor GOLD) == share 100 (isColor RED))%Q.
Proof.
  cbv zeta. split; [reflexivity|]. split; [reflexivity|].
  split; [reflexivity|]. split; [by vm_compute|]. split; [by vm_compute|].
  split; by vm_compute.
Qed.




(** * More on the stage controller and the gesture decoding *)

Section StageControllerMore.

Lemma handleReset_eq st : handleReset st = initialApp.
Proof.
  unfold handleReset, commit. simpl.
  by destruct (HandState_eqb (handState st) UNKNOWN).
Qed.

(** [handleReset] brings any state, reachable or not, to index 0 with both
    gesture memories UNKNOWN; the notification that follows a reset never
    moves the stage, even a CLOSED that follows an OPEN seen before the
    reset, and leaves both memories at the notified state. *)
Theorem reset_forgets_stage_and_gestures (st : AppState) (s : HandState) :
  handleReset st = mkApp 0 UNKNOWN UNKNOWN /\
  onHandStateChange s (handleReset st) = mkApp 0 s s /\
  currentStage (handleReset st) = Some TREE /\
  currentStageIndex
    (onHandStateChange CLOSED
       (handleReset (onHandStateChange OPEN (handleReset st)))) = 0%Z.
Proof.
  rewrite !handleReset_eq. split; [reflexivity|]. split; [by destruct s|].
  split; reflexivity.
Qed.

Lemma step_index st e :
  settled st ->
  currentStageIndex (step st e) = currentStageIndex st \/
  (currentStageIndex (step st e) = currentStageIndex st + 1)%Z \/
  (e = ResetStage /\ currentStageIndex (step st e) = 0%Z).
Proof.
  intros H. destruct e as [s| |]; simpl.
  - rewrite (notify_settled _ _ H). simpl. destruct H as [_ Hi].
    destruct (HandState_eqb (prevHandState st) OPEN && HandState_eqb s CLOSED);
      [|by left].
    destruct (decide (currentStageIndex st = 6%Z)) as [E|E]; [left | right; left]; lia.
  - rewrite clickNext_eq. simpl. destruct H as [_ Hi].
    destruct (decide (currentStageIndex st = 6%Z)) as [E|E]; [left | right; left]; lia.
  - right; right. by rewrite handleReset_eq.
Qed.

Lemma run_snoc evs e : run (evs ++ [e]) = step (run evs) e.
Proof. unfold run. by rewrite fold_left_app. Qed.

(** Whatever notifications, button presses and resets have happened, the
    stage index is between 0 and 6, so [STAGE_ORDER[currentStageIndex]] is
    one of the seven stages; and one more event leaves the index, adds one
    to it, or (a reset) puts it back to 0. *)
Theorem stage_index_always_names_a_stage (evs : list Event) (e : Event) :
  (0 <= currentStageIndex (run evs) <= 6)%Z /\
  (exists stage, currentStage (run evs) = Some stage) /\
  (currentStageIndex (run (evs ++ [e])) = currentStageIndex (run evs) \/
   (currentStageIndex (run (evs ++ [e])) = currentStageIndex (run evs) + 1)%Z \/
   (e = ResetStage /\ currentStageIndex (run (evs ++ [e])) = 0%Z)).
Proof.
  pose proof (run_settled evs) as H. split; [apply H|]. split.
  - destruct H as [_ Hi]. unfold currentStage.
    destruct (currentStageIndex (run evs) <? 0)%Z eqn:E; [lia|].
    apply lookup_lt_is_Some_2. simpl. lia.
  - rewrite run_snoc. by apply step_index.
Qed.

Lemma decodeHandState_cases str :
  (decodeHandState str = OPEN <-> str = "OPEN"%string) /\
  (decodeHandState str = CLOSED <-> str = "CLOSED"%string) /\
  (decodeHandState str = UNKNOWN <->
   str <> "OPEN"%string /\ str <> "CLOSED"%string).
Proof.
  unfold decodeHandState.
  destruct (String.eqb_spec str "OPEN") as [->|H1];
    [repeat split; try done; try (intros [? ?]; congruence)|].
  destruct (String.eqb_spec str "CLOSED") as [->|H2];
    [repeat split; try done; try (intros [? ?]; congruence)|].
  repeat split; try done; try (intros [? ?]; congruence).
Qed.

(** The decoding of the tool-call argument: exactly the string OPEN gives
    OPEN, exactly CLOSED gives CLOSED, every other string and a missing
    argument give UNKNOWN; and a notification decoded from anything but the
    string CLOSED never changes the stage index, whatever happened before. *)
Theorem only_closed_can_advance (evs : list Event) (stateStr : option string) :
  stateStr <> Some "CLOSED"%string ->
  decodeState stateStr <> CLOSED /\
  currentStageIndex (onHandStateChange (decodeState stateStr) (run evs))
    = currentStageIndex (run evs) /\
  (forall str : string,
     (decodeHandState str = OPEN <-> str = "OPEN"%string) /\
     (decodeHandState str = CLOSED <-> str = "CLOSED"%string) /\
     (decodeHandState str = UNKNOWN <->
      str <> "OPEN"%string /\ str <> "CLOSED"%string)) /\
  decodeState None = UNKNOWN.
Proof.
  intros Hne.
  assert (Hd : decodeState stateStr <> CLOSED).
  { destruct stateStr as [str|]; simpl; [|done].
    intros E. apply decodeHandState_cases in E. congruence. }
  split; [exact Hd|]. split; [|split; [apply decodeHandState_cases | reflexivity]].
  rewrite (notify_settled _ _ (run_settled evs)). simpl.
  destruct (decodeState stateStr); simpl; rewrite ?andb_false_r; done.
Qed.

(** The handling of one tool-call message: the calls named setHandState,
    and only they, are decoded and acknowledged, one response each, in the
    order of the calls and under their ids; a message with no such call
    produces no notification and no response. *)
Theorem tool_calls_acknowledged_in_order (calls : list FunctionCall) :
  let handled :=
    filter (fun fc => fc_name fc = "setHandState"%string) calls in
  (handleFunctionCalls calls).1 = (fun fc => decodeState (fc_state fc)) <$> handled /\
  (handleFunctionCalls calls).2
    = (fun fc => mkResponse (fc_id fc) "setHandState" "ok") <$> handled /\
  length (handleFunctionCalls calls).1 = length (handleFunctionCalls calls).2 /\
  (handled = [] -> handleFunctionCalls calls = ([], [])).
Proof.
  cbv zeta.
  assert (H : (handleFunctionCalls calls).1
              = (fun fc => decodeState (fc_state fc))
                  <$> filter (fun fc => fc_name fc = "setHandState"%string) calls /\
              (handleFunctionCalls calls).2
              = (fun fc => mkResponse (fc_id fc) "setHandState" "ok")
                  <$> filter (fun fc => fc_name fc = "setHandState"%string) calls).
  { induction calls as [|fc calls [IH1 IH2]]; [done|].
    simpl. destruct (handleFunctionCalls calls) as [states responses].
    simpl in IH1, IH2. rewrite filter_cons.
    destruct (String.eqb_spec (fc_name fc) "setHandState") as [E|E].
    - rewrite decide_True by done. simpl. rewrite E, IH1, IH2. done.
    - rewrite decide_False by done. simpl. done. }
  destruct H as [H1 H2]. split; [exact H1|]. split; [exact H2|]. split.
  - by rewrite H1, H2, !length_fmap.
  - intros E. rewrite E in H1, H2.
    destruct (handleFunctionCalls calls) as [a b]. simpl in *. by subst.
Qed.

End StageControllerMore.

Lemma only_closed_can_advance_on_garbage :
  decodeState (Some "closed"%string) <> CLOSED /\
  currentStageIndex
    (onHandStateChange (decodeState (Some "closed"%string)) (run [Notify OPEN]))
    = currentStageIndex (run [Notify OPEN]) /\
  (forall str : string,
     (decodeHandState str = OPEN <-> str = "OPEN"%string) /\
     (decodeHandState str = CLOSED <-> str = "CLOSED"%string) /\
     (decodeHandState str = UNKNOWN <->
      str <> "OPEN"%string /\ str <> "CLOSED"%string)) /\
  decodeState None = UNKNOWN.
Proof.
  apply (only_closed_can_advance [Notify OPEN] (Some "closed"%string)).
  discriminate.
Defined.
